(** * cxxheaderparser: parser state (src/cxxheaderparser/parserstate.py)

    A shallow embedding of [ParsedTypeModifiers] and of the [State] class
    hierarchy.  Python objects live in a store: dictionaries and class
    instances are reached through references, attributes of an instance are
    a finite map from attribute names to values, and every method is a
    computation that threads the store, may raise, and may call the visitor. *)

From stdpp Require Import gmap strings list fin_maps.

(** ** External declarations *)

(** The modules [lexer], [types] and [visitor] are imported by
    parserstate.py but are not part of the sources; [Location],
    [NamespaceDecl], [ClassDecl] and [CxxVisitor], and the type of the user
    data a visitor attaches to a state, are parameters of the development. *)
Class Externals := {
  Location : Type;
  NamespaceDecl : Type;
  ClassDecl : Type;
  UserData : Type;
  CxxVisitor : Type
}.

(** Modelled from the spec: [LexToken] is declared in lexer.py, which is not
    part of the sources.  The spec gives a token "a literal spelling and a
    source location"; [value] is the spelling that [validate] reads. *)
Record LexToken `{Externals} := {
  value : string;
  location : Location
}.

(** ** The store *)

Definition addr := positive.

(** A [typing.Dict[str, LexToken]]: entries in iteration order, which in
    Python is the order of first insertion of the keys. *)
Definition Dict `{Externals} := list (string * LexToken).

(** [class ParsedTypeModifiers(typing.NamedTuple)]: an immutable triple of
    references to dictionaries. *)
Record ParsedTypeModifiers := {
  vars : addr;
  both : addr;
  meths : addr
}.

(** What an attribute of an instance can hold. *)
Inductive Value `{Externals} :=
| VNone
| VBool (b : bool)
| VStr (s : string)
| VRef (a : addr)
| VMods (m : ParsedTypeModifiers)
| VNamespaceDecl (n : NamespaceDecl)
| VClassDecl (c : ClassDecl)
| VLocation (l : Location)
| VUserData (u : UserData)
| VVisitor (v : CxxVisitor).

(** The classes of the [State] hierarchy. *)
Inductive PyClass :=
| cls_State
| cls_ExternBlockState
| cls_NamespaceBlockState
| cls_ClassBlockState.

(** An object of the store: a dictionary, or an instance of a class with
    the attributes assigned so far. *)
Inductive Obj `{Externals} :=
| ODict (d : Dict)
| OInstance (cls : PyClass) (attrs : gmap string Value).

(** A call received by the visitor: the hook, the visitor it is invoked on
    and the state passed to it. *)
Inductive Call `{Externals} :=
| on_extern_block_end (visitor : CxxVisitor) (state : addr)
| on_namespace_end (visitor : CxxVisitor) (state : addr)
| on_class_end (visitor : CxxVisitor) (state : addr).

(** The store and the calls the visitor received, oldest first. *)
Record World `{Externals} := {
  heap : gmap addr Obj;
  calls : list Call
}.

(** ** Computations *)

Inductive Exn :=
| CxxParseError (message : string)
| AttributeError (name : string)
| TypeError.

Inductive Outcome (A : Type) :=
| Returns (a : A)
| Raises (e : Exn).
Arguments Returns {A} a.
Arguments Raises {A} e.

(** A computation returns or raises, and leaves a store. *)
Definition Py `{Externals} (A : Type) : Type := World → Outcome A * World.

Section Computations.
Context `{Externals}.

Definition ret {A} (a : A) : Py A := λ w, (Returns a, w).

Definition bind {A B} (m : Py A) (k : A → Py B) : Py B :=
  λ w, match m w with
       | (Returns a, w') => k a w'
       | (Raises e, w') => (Raises e, w')
       end.

Definition raise {A} (e : Exn) : Py A := λ w, (Raises e, w).

Definition read_heap (a : addr) : Py (option Obj) := λ w, (Returns (heap w !! a), w).

Definition write_heap (a : addr) (o : Obj) : Py unit :=
  λ w, (Returns (), {| heap := <[a := o]> (heap w); calls := calls w |}).

(** Object creation: a new instance of [cls] with no attribute yet, at a
    reference that is not in use. *)
Definition new (cls : PyClass) : Py addr :=
  λ w, let a := fresh (dom (heap w)) in
       (Returns a, {| heap := <[a := OInstance cls ∅]> (heap w); calls := calls w |}).

(** The visitor is external: a call to one of its hooks is recorded. *)
Definition notify (c : Call) : Py unit :=
  λ w, (Returns (), {| heap := heap w; calls := calls w ++ [c] |}).
End Computations.

Declare Scope py_scope.
Delimit Scope py_scope with py.

Notation "x ← m ; k" := (bind m (λ x, k))
  (at level 20, m at level 100, k at level 200, only parsing) : py_scope.
Notation "m ;; k" := (bind m (λ _, k))
  (at level 100, k at level 200, right associativity, only parsing) : py_scope.

Section Python.
Context `{Externals}.
Local Open Scope py_scope.

(** [o.name] *)
Definition getattr (a : addr) (name : string) : Py Value :=
  o ← read_heap a;
  match o with
  | Some (OInstance _ attrs) =>
      match attrs !! name with
      | Some v => ret v
      | None => raise (AttributeError name)
      end
  | _ => raise TypeError
  end.

(** [o.name = v] *)
Definition setattr (a : addr) (name : string) (v : Value) : Py unit :=
  o ← read_heap a;
  match o with
  | Some (OInstance cls attrs) => write_heap a (OInstance cls (<[name := v]> attrs))
  | _ => raise TypeError
  end.

(** The dictionary a reference annotated [typing.Dict[str, LexToken]]
    points to.  The annotation excludes any other object; reaching one is a
    [TypeError] here. *)
Definition dict_at (a : addr) : Py Dict :=
  o ← read_heap a;
  match o with
  | Some (ODict d) => ret d
  | _ => raise TypeError
  end.

(** Truth value of a dictionary: it is not empty. *)
Definition truthy (a : addr) : Py bool :=
  d ← dict_at a;
  ret (match d with [] => false | _ => true end).

(** [d.values()] *)
Definition values (a : addr) : Py (list LexToken) :=
  d ← dict_at a;
  ret (d.*2).

(** [x and y]: [y] is evaluated only when [x] is true. *)
Definition and_ (x y : Py bool) : Py bool :=
  b ← x;
  if b then y else ret false.

Definition not_ (b : bool) : Py bool := ret (negb b).

(** [if c: body] *)
Definition if_ (c : Py bool) (body : Py unit) : Py unit :=
  b ← c;
  if b then body else ret ().

(** [for x in xs: body] *)
Fixpoint for_ {A} (xs : list A) (body : A → Py unit) : Py unit :=
  match xs with
  | [] => ret ()
  | x :: xs' => body x;; for_ xs' body
  end.
End Python.

(** ** ParsedTypeModifiers *)

Module ParsedTypeModifiers.
Section Methods.
Context `{Externals}.
Local Open Scope py_scope.

(** [f"{msg}: unexpected '{tok.value}'"] *)
Definition unexpected (msg : string) (tok : LexToken) : string :=
  msg +:+ ": unexpected '" +:+ value tok +:+ "'".

Definition validate (self : ParsedTypeModifiers)
    (var_ok meth_ok : bool) (msg : string) : Py unit :=
  if_ (and_ (not_ var_ok) (truthy (vars self)))
    (toks ← values (vars self);
     for_ toks (λ tok, raise (CxxParseError (unexpected msg tok))));;
  if_ (and_ (not_ meth_ok) (truthy (meths self)))
    (toks ← values (meths self);
     for_ toks (λ tok, raise (CxxParseError (unexpected msg tok))));;
  if_ (and_ (and_ (not_ meth_ok) (not_ var_ok)) (truthy (both self)))
    (toks ← values (both self);
     for_ toks (λ tok, raise (CxxParseError (unexpected msg tok)))).
End Methods.
End ParsedTypeModifiers.

(** ** The State hierarchy *)

(** [typing.Optional[State]] as a value. *)
Definition optional `{Externals} (parent : option addr) : Value :=
  match parent with
  | Some a => VRef a
  | None => VNone
  end.

(** Calling a class: the instance is created, then initialised by the
    class's [__init__]. *)
Definition instantiate `{Externals} (cls : PyClass) (init : addr → Py unit) : Py addr :=
  (self ← new cls;
   init self;;
   ret self)%py.

Module State.
Section Methods.
Context `{Externals}.
Local Open Scope py_scope.

Definition __init__ (self : addr) (parent : option addr) : Py unit :=
  setattr self "parent" (optional parent).

Definition _finish (self : addr) (visitor : CxxVisitor) : Py unit :=
  ret ().

Definition create (parent : option addr) : Py addr :=
  instantiate cls_State (λ self, __init__ self parent).
End Methods.
End State.

Module ExternBlockState.
Section Methods.
Context `{Externals}.
Local Open Scope py_scope.

Definition __init__ (self : addr) (parent : option addr) (linkage : string) : Py unit :=
  State.__init__ self parent;;
  setattr self "linkage" (VStr linkage).

Definition _finish (self : addr) (visitor : CxxVisitor) : Py unit :=
  notify (on_extern_block_end visitor self).

Definition create (parent : option addr) (linkage : string) : Py addr :=
  instantiate cls_ExternBlockState (λ self, __init__ self parent linkage).
End Methods.
End ExternBlockState.

Module NamespaceBlockState.
Section Methods.
Context `{Externals}.
Local Open Scope py_scope.

Definition __init__ (self : addr) (parent : option addr)
    (namespace : NamespaceDecl) : Py unit :=
  State.__init__ self parent;;
  setattr self "namespace" (VNamespaceDecl namespace).

Definition _finish (self : addr) (visitor : CxxVisitor) : Py unit :=
  notify (on_namespace_end visitor self).

Definition create (parent : option addr) (namespace : NamespaceDecl) : Py addr :=
  instantiate cls_NamespaceBlockState (λ self, __init__ self parent namespace).
End Methods.
End NamespaceBlockState.

Module ClassBlockState.
Section Methods.
Context `{Externals}.
Local Open Scope py_scope.

Definition __init__ (self : addr) (parent : option addr) (class_decl : ClassDecl)
    (access : string) (typedef : bool) (mods : ParsedTypeModifiers) : Py unit :=
  State.__init__ self parent;;
  setattr self "class_decl" (VClassDecl class_decl);;
  setattr self "access" (VStr access);;
  setattr self "typedef" (VBool typedef);;
  setattr self "mods" (VMods mods).

Definition _set_access (self : addr) (access : string) : Py unit :=
  setattr self "access" (VStr access).

Definition _finish (self : addr) (visitor : CxxVisitor) : Py unit :=
  notify (on_class_end visitor self).

Definition create (parent : option addr) (class_decl : ClassDecl)
    (access : string) (typedef : bool) (mods : ParsedTypeModifiers) : Py addr :=
  instantiate cls_ClassBlockState
    (λ self, __init__ self parent class_decl access typedef mods).
End Methods.
End ClassBlockState.

(** [state._finish(visitor)]: the method is the one of the instance's class. *)
Definition finish_method `{Externals} (cls : PyClass) : addr → CxxVisitor → Py unit :=
  match cls with
  | cls_State => State._finish
  | cls_ExternBlockState => ExternBlockState._finish
  | cls_NamespaceBlockState => NamespaceBlockState._finish
  | cls_ClassBlockState => ClassBlockState._finish
  end.

Definition call_finish `{Externals} (state : addr) (visitor : CxxVisitor) : Py unit :=
  (o ← read_heap state;
   match o with
   | Some (OInstance cls _) => finish_method cls state visitor
   | _ => raise (AttributeError "_finish")
   end)%py.

(** ** The scope stack *)

Module Parser.
Section Stack.
Context `{Externals}.
Local Open Scope py_scope.

(** Modelled from the spec: the transitions of the scope stack, a push for
    each of the three opening constructs and a pop for the closing token. *)
Inductive Op :=
| push_extern (linkage : string)
| push_namespace (namespace : NamespaceDecl)
| push_class (class_decl : ClassDecl) (access : string) (typedef : bool)
    (mods : ParsedTypeModifiers)
| pop.

(** Modelled from the spec: the grammar's handling of the scope stack is
    in parser.py, which is not part of the sources.  A push constructs the
    new state with the current top of the stack as parent and makes it the
    top; a pop invokes the close operation of the top and resumes on its
    parent. *)
Definition step (visitor : CxxVisitor) (top : option addr) (op : Op) : Py (option addr) :=
  match op with
  | push_extern linkage =>
      s ← ExternBlockState.create top linkage; ret (Some s)
  | push_namespace namespace =>
      s ← NamespaceBlockState.create top namespace; ret (Some s)
  | push_class class_decl access typedef mods =>
      s ← ClassBlockState.create top class_decl access typedef mods; ret (Some s)
  | pop =>
      match top with
      | Some s =>
          call_finish s visitor;;
          p ← getattr s "parent";
          match p with
          | VRef a => ret (Some a)
          | VNone => ret None
          | _ => raise TypeError
          end
      | None => raise (AttributeError "_finish")
      end
  end.

(** Modelled from the spec: the grammar performs the transitions one after
    the other, each on the top of the stack the previous one left; an error
    aborts the parse. *)
Fixpoint run (visitor : CxxVisitor) (top : option addr) (ops : list Op) : Py (option addr) :=
  match ops with
  | [] => ret top
  | op :: ops' => top' ← step visitor top op; run visitor top' ops'
  end.
End Stack.
End Parser.

(** ** Notions used in the statements *)

(** [sub] occurs in [s]. *)
Definition contains (sub s : string) : Prop :=
  ∃ pre post, s = pre +:+ sub +:+ post.

(** [d[k] = v] on a dictionary: a key that is present keeps its place and
    takes the new value, a new key goes last. *)
Fixpoint setitem `{Externals} (k : string) (v : LexToken) (d : Dict) : Dict :=
  match d with
  | [] => [(k, v)]
  | (k', v') :: d' =>
      if decide (k' = k) then (k, v) :: d' else (k', v') :: setitem k v d'
  end.

(** The dictionary obtained from the empty one by the assignments [items],
    in that order. *)
Definition from_items `{Externals} (items : list (string * LexToken)) : Dict :=
  foldl (λ d kv, setitem kv.1 kv.2 d) [] items.

Section Notions.
Context `{Externals}.

(** The three references of [self] point to the dictionaries [dv], [db]
    and [dm], as the annotations of the fields say. *)
Definition classified (w : World) (self : ParsedTypeModifiers) (dv db dm : Dict) : Prop :=
  heap w !! vars self = Some (ODict dv) ∧
  heap w !! both self = Some (ODict db) ∧
  heap w !! meths self = Some (ODict dm).

(** A computation that leaves the store and the visitor as they were,
    whatever its outcome. *)
Definition readonly {A} (m : Py A) : Prop := ∀ w, (m w).2 = w.

(** The result [r] of calling a class in the store [w]: a new instance
    [self] of [cls] whose [parent] attribute is the argument as given, every
    other object being what it was, and no call made to the visitor. *)
Definition constructed (cls : PyClass) (parent : option addr)
    (w : World) (r : Outcome addr * World) : Prop :=
  ∃ self attrs w',
    r = (Returns self, w') ∧
    heap w !! self = None ∧
    heap w' !! self = Some (OInstance cls attrs) ∧
    attrs !! "parent" = Some (optional parent) ∧
    (∀ a, a ≠ self → heap w' !! a = heap w !! a) ∧
    calls w' = calls w.

(** The state a call passes to the visitor. *)
Definition call_state (c : Call) : addr :=
  match c with
  | on_extern_block_end _ s => s
  | on_namespace_end _ s => s
  | on_class_end _ s => s
  end.

(** The [j]-th call received by the visitor is the close notification of
    [state]. *)
Definition closed_at (w : World) (state : addr) (j : nat) : Prop :=
  call_state <$> (calls w !! j) = Some state.

(** The call [_finish] makes for an instance of [cls]. *)
Definition end_calls (cls : PyClass) (visitor : CxxVisitor) (state : addr) : list Call :=
  match cls with
  | cls_State => []
  | cls_ExternBlockState => [on_extern_block_end visitor state]
  | cls_NamespaceBlockState => [on_namespace_end visitor state]
  | cls_ClassBlockState => [on_class_end visitor state]
  end.

(** A store that holds the dictionaries [ds] and nothing else; no call
    was made yet. *)
Definition store_of (ds : gmap addr Dict) : World :=
  {| heap := ODict <$> ds; calls := [] |}.

(** [stk] is the chain of open scopes from [top] to the root, each the
    [parent] of the one before. *)
Fixpoint chain (w : World) (top : option addr) (stk : list addr) : Prop :=
  match stk with
  | [] => top = None
  | a :: stk' =>
      top = Some a ∧
      ∃ cls attrs p,
        heap w !! a = Some (OInstance cls attrs) ∧ cls ≠ cls_State ∧
        attrs !! "parent" = Some (optional p) ∧ chain w p stk'
  end.

(** What the scope stack maintains: the open scopes form a chain without
    repetition, none of them was closed, every other state was, only
    states were closed, whenever a parent was closed its children were
    closed before, and no state was closed twice. *)
Record stack_inv (w : World) (top : option addr) (stk : list addr) : Prop := {
  inv_chain : chain w top stk;
  inv_nodup : NoDup stk;
  inv_open : ∀ a j, a ∈ stk → ¬ closed_at w a j;
  inv_closed : ∀ a cls attrs,
    heap w !! a = Some (OInstance cls attrs) → a ∈ stk ∨ ∃ j, closed_at w a j;
  inv_alloc : ∀ a j, closed_at w a j → is_Some (heap w !! a);
  inv_lifo : ∀ child parent cls attrs j,
    heap w !! child = Some (OInstance cls attrs) →
    attrs !! "parent" = Some (VRef parent) →
    closed_at w parent j → ∃ i, i < j ∧ closed_at w child i;
  inv_once : NoDup (call_state <$> calls w)
}.
End Notions.

(** ** A concrete instance, for examples *)

Definition demo : Externals :=
  {| Location := nat; NamespaceDecl := string; ClassDecl := string;
     UserData := unit; CxxVisitor := unit |}.

Definition demo_tok (spelling : string) (line : nat) : @LexToken demo :=
  {| value := spelling; location := (line : @Location demo) |}.

Definition demo_visitor : @CxxVisitor demo := ().

Definition demo_mods : ParsedTypeModifiers :=
  {| vars := 1; both := 2; meths := 3 |}%positive.

(** Three dictionaries: [vars = {"mutable": tok}], [both = {"static": tok}],
    [meths = {"virtual": tok, "override": tok}]. *)
Definition demo_vars : @Dict demo := [("mutable", demo_tok "mutable" 3)].
Definition demo_both : @Dict demo := [("static", demo_tok "static" 4)].
Definition demo_meths : @Dict demo :=
  [("virtual", demo_tok "virtual" 5); ("override", demo_tok "override" 5)].

Definition demo_store : @World demo :=
  {| heap := {[ 1%positive := ODict demo_vars;
                2%positive := ODict demo_both;
                3%positive := ODict demo_meths ]};
     calls := [] |}.

(** A namespace state, a class state nested in it, and a base state, next
    to the three dictionaries. *)
Definition demo_namespace_attrs : gmap string (@Value demo) :=
  {[ "parent" := VNone; "namespace" := VNamespaceDecl ("n" : @NamespaceDecl demo) ]}.

Definition demo_class_attrs : gmap string (@Value demo) :=
  {[ "parent" := VRef 4%positive; "class_decl" := VClassDecl ("C" : @ClassDecl demo);
     "access" := VStr "protected"; "typedef" := VBool false;
     "mods" := VMods demo_mods ]}.

Definition demo_state_attrs : gmap string (@Value demo) :=
  {[ "parent" := VRef 5%positive ]}.

Definition demo_scopes : @World demo :=
  {| heap := <[6%positive := OInstance cls_State demo_state_attrs]>
               (<[5%positive := OInstance cls_ClassBlockState demo_class_attrs]>
                  (<[4%positive := OInstance cls_NamespaceBlockState demo_namespace_attrs]>
                     (heap demo_store)));
     calls := [] |}.

(** The same store with no variable-only modifier seen. *)
Definition demo_store_no_vars : @World demo :=
  {| heap := <[1%positive := ODict []]> (heap demo_store); calls := [] |}.

Definition demo_ops : list (@Parser.Op demo) :=
  [Parser.push_namespace ("n" : @NamespaceDecl demo);
   Parser.push_class ("C" : @ClassDecl demo) "private" false demo_mods;
   Parser.pop; Parser.pop].

(** * Properties *)

(** ** Running the primitives *)

Section PrimitiveFacts.
Context `{Externals}.

Lemma dict_at_run w a d :
  heap w !! a = Some (ODict d) → dict_at a w = (Returns d, w).
Proof. intros Ha. unfold dict_at, bind, read_heap. by rewrite Ha. Qed.

Lemma truthy_run w a d :
  heap w !! a = Some (ODict d) →
  truthy a w = (Returns (match d with [] => false | _ => true end), w).
Proof. intros Ha. unfold truthy, bind. by rewrite (dict_at_run _ _ _ Ha). Qed.

Lemma values_run w a d :
  heap w !! a = Some (ODict d) → values a w = (Returns (d.*2), w).
Proof. intros Ha. unfold values, bind. by rewrite (dict_at_run _ _ _ Ha). Qed.

(** A loop whose body raises stops at the first element. *)
Lemma for_raise {A} (xs : list A) (e : A → Exn) w :
  for_ xs (λ x, raise (e x)) w =
  (match xs with [] => Returns () | x :: _ => Raises (e x) end, w).
Proof. by destruct xs. Qed.

(** One of the three checks of [validate]: it raises for the first token
    of the dictionary when the guard holds and the dictionary is not
    empty, and otherwise does nothing. *)
Lemma check_run (guard : bool) a d msg w :
  heap w !! a = Some (ODict d) →
  if_ (and_ (ret guard) (truthy a))
    (bind (values a)
       (λ toks, for_ toks
          (λ tok, raise (CxxParseError (ParsedTypeModifiers.unexpected msg tok))))) w =
  (match (if guard then head (d.*2) else None) with
   | Some tok => Raises (CxxParseError (ParsedTypeModifiers.unexpected msg tok))
   | None => Returns ()
   end, w).
Proof.
  intros Ha. unfold if_, and_, bind at 1 2, ret at 1.
  destruct guard; [|done].
  rewrite (truthy_run _ _ _ Ha).
  destruct d as [|[k tok] d]; [done|].
  unfold bind. rewrite (values_run _ _ _ Ha). by rewrite for_raise.
Qed.

(** The token [validate] reports, if any: the first of [vars] when
    variables are not accepted, else the first of [meths] when methods are
    not accepted, else the first of [both] when neither is. *)
Lemma validate_run w self dv db dm var_ok meth_ok msg :
  classified w self dv db dm →
  ParsedTypeModifiers.validate self var_ok meth_ok msg w =
  (match (if negb var_ok then head (dv.*2) else None),
         (if negb meth_ok then head (dm.*2) else None),
         (if negb meth_ok && negb var_ok then head (db.*2) else None) with
   | Some tok, _, _
   | None, Some tok, _
   | None, None, Some tok =>
       Raises (CxxParseError (ParsedTypeModifiers.unexpected msg tok))
   | None, None, None => Returns ()
   end, w).
Proof.
  intros (Hv & Hb & Hm). unfold ParsedTypeModifiers.validate, not_.
  unfold bind at 1. rewrite (check_run _ _ _ _ _ Hv).
  destruct (if negb var_ok then _ else _) as [tv|]; [done|].
  unfold bind at 1. rewrite (check_run _ _ _ _ _ Hm).
  destruct (if negb meth_ok then _ else _) as [tm|]; [done|].
  replace (and_ (ret (negb meth_ok)) (ret (negb var_ok)))
    with (ret (A:=bool) (negb meth_ok && negb var_ok)).
  - rewrite (check_run _ _ _ _ _ Hb).
    by destruct (if negb meth_ok && negb var_ok then _ else _).
  - by destruct meth_ok.
Qed.
End PrimitiveFacts.

(** ** String facts *)

Lemma append_assoc (a b c : string) : (a +:+ b) +:+ c = a +:+ b +:+ c.
Proof.
  induction a as [|x a IH]; [done|].
  change (String x ((a +:+ b) +:+ c) = String x (a +:+ b +:+ c)).
  by rewrite IH.
Qed.

Lemma contains_prefix (a b : string) : contains a (a +:+ b).
Proof. by exists "", b. Qed.

Lemma contains_middle (a b c : string) : contains b (a +:+ b +:+ c).
Proof. by exists a, c. Qed.

Lemma unexpected_contains `{Externals} msg (tok : LexToken) :
  contains msg (ParsedTypeModifiers.unexpected msg tok) ∧
  contains (value tok) (ParsedTypeModifiers.unexpected msg tok).
Proof.
  split; [apply contains_prefix|].
  exists (msg +:+ ": unexpected '"), "'".
  unfold ParsedTypeModifiers.unexpected. by rewrite append_assoc.
Qed.

(** ** Read-only computations *)

Section ReadOnly.
Context `{Externals}.

Lemma readonly_ret {A} (a : A) : readonly (ret a).
Proof. done. Qed.

Lemma readonly_raise {A} e : readonly (raise (A:=A) e).
Proof. done. Qed.

Lemma readonly_read_heap a : readonly (read_heap a).
Proof. done. Qed.

Lemma readonly_bind {A B} (m : Py A) (k : A → Py B) :
  readonly m → (∀ a, readonly (k a)) → readonly (bind m k).
Proof.
  intros Hm Hk w. unfold bind. specialize (Hm w).
  destruct (m w) as [[a|e] w1]; simpl in *; subst w1; [apply Hk|done].
Qed.

Lemma readonly_dict_at a : readonly (dict_at a).
Proof.
  apply readonly_bind; [apply readonly_read_heap|].
  intros [[d|cls attrs]|]; first [apply readonly_ret|apply readonly_raise].
Qed.

Lemma readonly_truthy a : readonly (truthy a).
Proof. apply readonly_bind; [apply readonly_dict_at|intros; apply readonly_ret]. Qed.

Lemma readonly_values a : readonly (values a).
Proof. apply readonly_bind; [apply readonly_dict_at|intros; apply readonly_ret]. Qed.

Lemma readonly_and (x y : Py bool) : readonly x → readonly y → readonly (and_ x y).
Proof.
  intros Hx Hy. apply readonly_bind; [done|].
  intros [|]; [done|apply readonly_ret].
Qed.

Lemma readonly_if (c : Py bool) body : readonly c → readonly body → readonly (if_ c body).
Proof.
  intros Hc Hb. apply readonly_bind; [done|].
  intros [|]; [done|apply readonly_ret].
Qed.

Lemma readonly_for {A} (xs : list A) body :
  (∀ x, readonly (body x)) → readonly (for_ xs body).
Proof.
  intros Hb. induction xs as [|x xs IH]; [apply readonly_ret|].
  simpl. by apply readonly_bind.
Qed.

Lemma readonly_check (guard : Py bool) a msg :
  readonly guard →
  readonly
    (if_ (and_ guard (truthy a))
       (bind (values a)
          (λ toks, for_ toks
             (λ tok, raise (CxxParseError (ParsedTypeModifiers.unexpected msg tok)))))).
Proof.
  intros Hg. apply readonly_if.
  - apply readonly_and; [done|apply readonly_truthy].
  - apply readonly_bind; [apply readonly_values|].
    intros toks. apply readonly_for. intros tok. apply readonly_raise.
Qed.

Lemma readonly_validate self var_ok meth_ok msg :
  readonly (ParsedTypeModifiers.validate self var_ok meth_ok msg).
Proof.
  unfold ParsedTypeModifiers.validate, not_.
  repeat (apply readonly_bind; [|intros _]);
    apply readonly_check;
    repeat first [apply readonly_ret | apply readonly_and].
Qed.
End ReadOnly.

(** ** Dictionaries *)

Section DictFacts.
Context `{Externals}.

(** Assignments never displace the first key of a dictionary. *)
Lemma foldl_setitem_head k v (d : Dict) items :
  ∃ v' d', foldl (λ d kv, setitem kv.1 kv.2 d) ((k, v) :: d) items = (k, v') :: d'.
Proof.
  revert v d. induction items as [|[k1 v1] items IH]; intros v d; simpl.
  - by exists v, d.
  - destruct (decide (k = k1)) as [->|]; apply IH.
Qed.

(** The first key of a dictionary is the key of the first assignment that
    built it. *)
Lemma from_items_head items k tok rest :
  from_items items = (k, tok) :: rest → ∃ tok0 items', items = (k, tok0) :: items'.
Proof.
  destruct items as [|[k0 v0] items]; [done|].
  unfold from_items. simpl.
  destruct (foldl_setitem_head k0 v0 [] items) as (v' & d' & ->).
  intros [= -> _ _]. by exists v0, items.
Qed.
End DictFacts.

(** ** ParsedTypeModifiers.validate *)

Section Validate.
Context `{Externals}.
Import ParsedTypeModifiers.

(** Picks the condition of [validate] that holds. *)
Local Ltac violated :=
  first [ left; by split
        | right; left; by split
        | right; right; by repeat split ].

(** C1: [validate] fails with a parse error exactly when a variable-only
    modifier is present and variables are not accepted, or a method-only
    modifier is present and methods are not accepted, or a modifier of
    [both] is present and neither is accepted; in every other case it
    returns and leaves the store and the visitor untouched. *)
Theorem validate_fails_iff w self dv db dm var_ok meth_ok msg :
  classified w self dv db dm →
  ((∃ m w', validate self var_ok meth_ok msg w = (Raises (CxxParseError m), w')) ↔
   (var_ok = false ∧ dv ≠ []) ∨ (meth_ok = false ∧ dm ≠ []) ∨
   (var_ok = false ∧ meth_ok = false ∧ db ≠ [])) ∧
  (¬ ((var_ok = false ∧ dv ≠ []) ∨ (meth_ok = false ∧ dm ≠ []) ∨
      (var_ok = false ∧ meth_ok = false ∧ db ≠ [])) →
   validate self var_ok meth_ok msg w = (Returns (), w)).
Proof.
  intros Hc. rewrite (validate_run _ _ _ _ _ _ _ _ Hc).
  destruct var_ok, meth_ok, dv as [|[kv tv] dv], dm as [|[km tm] dm],
    db as [|[kb tb] db]; simpl;
    (split; [split; [intros (m & w' & Heq)|intros Hd]|intros Hn]);
    first [ done
          | by eexists _, _
          | exfalso; apply Hn; violated
          | violated
          | destruct Hd as [[? ?]|[[? ?]|(? & ? & ?)]]; done ].
Qed.

(** C2: the error of a failing [validate] is a parse error whose message is
    the context message followed by the spelling of the token of an entry of
    a violated mapping, so it contains both, and it contains the key of that
    entry whenever the token is stored under its own spelling; with
    [vars = {"mutable": tok}] for the token spelled "mutable", variables
    refused and methods accepted, the message contains "ctx" and
    "mutable". *)
Theorem validate_message :
  (∀ w self dv db dm var_ok meth_ok msg e w',
     classified w self dv db dm →
     validate self var_ok meth_ok msg w = (Raises e, w') →
     ∃ k tok m,
       ((var_ok = false ∧ (k, tok) ∈ dv) ∨ (meth_ok = false ∧ (k, tok) ∈ dm) ∨
        (var_ok = false ∧ meth_ok = false ∧ (k, tok) ∈ db)) ∧
       e = CxxParseError m ∧
       m = msg +:+ ": unexpected '" +:+ value tok +:+ "'" ∧
       contains msg m ∧ contains (value tok) m ∧
       (value tok = k → contains k m)) ∧
  (∀ w self tok db dm,
     value tok = "mutable" →
     classified w self [("mutable", tok)] db dm →
     ∃ m, validate self false true "ctx" w = (Raises (CxxParseError m), w) ∧
          contains "ctx" m ∧ contains "mutable" m).
Proof.
  split.
  - intros w self dv db dm var_ok meth_ok msg e w' Hc.
    rewrite (validate_run _ _ _ _ _ _ _ _ Hc).
    destruct var_ok, meth_ok, dv as [|[kv tv] dv], dm as [|[km tm] dm],
      db as [|[kb tb] db]; simpl; intros [= <- <-];
      (eexists _, _, _; split;
       [first [ left; split; [done|apply list_elem_of_here]
              | right; left; split; [done|apply list_elem_of_here]
              | right; right; split; [done|split; [done|apply list_elem_of_here]] ]
       |split; [done|split; [done|split; [apply unexpected_contains|split;
          [apply unexpected_contains|intros <-; apply unexpected_contains]]]]]).
  - intros w self tok db dm Htok Hc.
    rewrite (validate_run _ _ _ _ _ _ _ _ Hc). simpl.
    eexists. split; [done|]. rewrite <- Htok. apply unexpected_contains.
Qed.

(** C5: the token a failing [validate] reports is the first entry, in
    iteration order, of a violated mapping; its key is the key of the first
    assignment that built the mapping; and calling [validate] again with the
    same arguments raises the same error. *)
Theorem validate_first_in_order w self dv db dm var_ok meth_ok msg e w' :
  classified w self dv db dm →
  validate self var_ok meth_ok msg w = (Raises e, w') →
  (∃ d k tok rest,
     ((var_ok = false ∧ d = dv) ∨ (meth_ok = false ∧ d = dm) ∨
      (var_ok = false ∧ meth_ok = false ∧ d = db)) ∧
     d = (k, tok) :: rest ∧
     (∀ items, d = from_items items → ∃ tok0 items', items = (k, tok0) :: items') ∧
     e = CxxParseError (msg +:+ ": unexpected '" +:+ value tok +:+ "'")) ∧
  validate self var_ok meth_ok msg w' = (Raises e, w').
Proof.
  intros Hc Hrun.
  assert (w' = w) as ->.
  { pose proof (readonly_validate self var_ok meth_ok msg w) as Hw.
    by rewrite Hrun in Hw. }
  split; [|done].
  revert Hrun. rewrite (validate_run _ _ _ _ _ _ _ _ Hc).
  destruct var_ok, meth_ok, dv as [|[kv tv] dv], dm as [|[km tm] dm],
    db as [|[kb tb] db]; simpl; intros [= <-];
    (eexists _, _, _, _; split;
     [|split; [reflexivity|split;
        [intros items Hd; symmetry in Hd; exact (from_items_head _ _ _ _ Hd)|done]]]);
    naive_solver.
Qed.

(** C9: when several partitions are in violation, the reported token comes
    from [vars] first, then from [meths], and from [both] only when neither
    of the others is in violation. *)
Theorem validate_priority w self dv db dm var_ok meth_ok msg :
  classified w self dv db dm →
  (∀ k tok rest, var_ok = false → dv = (k, tok) :: rest →
     validate self var_ok meth_ok msg w =
     (Raises (CxxParseError (msg +:+ ": unexpected '" +:+ value tok +:+ "'")), w)) ∧
  (∀ k tok rest, var_ok = true ∨ dv = [] → meth_ok = false → dm = (k, tok) :: rest →
     validate self var_ok meth_ok msg w =
     (Raises (CxxParseError (msg +:+ ": unexpected '" +:+ value tok +:+ "'")), w)) ∧
  (∀ k tok rest, var_ok = false → meth_ok = false → dv = [] → dm = [] →
     db = (k, tok) :: rest →
     validate self var_ok meth_ok msg w =
     (Raises (CxxParseError (msg +:+ ": unexpected '" +:+ value tok +:+ "'")), w)).
Proof.
  intros Hc. rewrite (validate_run _ _ _ _ _ _ _ _ Hc).
  split; [|split].
  - by intros k tok rest -> ->.
  - intros k tok rest Hv -> ->. destruct Hv as [->| ->]; [done|by destruct var_ok].
  - by intros k tok rest -> -> -> -> ->.
Qed.

(** C10: [validate] changes nothing, whether it returns or raises: the store
    (hence the three mappings of the classification, and every other
    object) and the calls received by the visitor are what they were. *)
Theorem validate_no_mutation (w : World) self var_ok meth_ok msg :
  (validate self var_ok meth_ok msg w).2 = w.
Proof. apply readonly_validate. Qed.

End Validate.

Lemma demo_classified :
  classified demo_store demo_mods demo_vars demo_both demo_meths.
Proof. by vm_compute. Defined.

Lemma validate_fails_iff_witness :
  classified demo_store demo_mods demo_vars demo_both demo_meths ∧
  ((∃ m w', ParsedTypeModifiers.validate demo_mods false true "ctx" demo_store =
            (Raises (CxxParseError m), w')) ∧
   ParsedTypeModifiers.validate demo_mods true true "ctx" demo_store =
   (Returns (), demo_store)).
Proof.
  split; [exact demo_classified|]. split.
  - apply (proj1 (validate_fails_iff demo_store demo_mods _ _ _ false true "ctx"
                    demo_classified)).
    left. by split.
  - apply (proj2 (validate_fails_iff demo_store demo_mods _ _ _ true true "ctx"
                    demo_classified)).
    intros [[? _]|[[? _]|[? _]]]; discriminate.
Defined.

Lemma validate_message_witness :
  classified demo_store demo_mods demo_vars demo_both demo_meths ∧
  ∃ m, ParsedTypeModifiers.validate demo_mods false true "ctx" demo_store =
       (Raises (CxxParseError m), demo_store) ∧
       contains "ctx" m ∧ contains "mutable" m.
Proof.
  split; [exact demo_classified|].
  exact (proj2 (validate_message (H:=demo)) demo_store demo_mods
           (demo_tok "mutable" 3) _ _ eq_refl demo_classified).
Defined.

(** The spelling reported is that of the token: the key an entry is stored
    under is not read. *)
Example validate_reads_token :
  ParsedTypeModifiers.validate demo_mods false true "ctx"
    {| heap := <[1%positive := ODict [("mutable", demo_tok "register" 7)]]>
                 (heap demo_store);
       calls := [] |} =
  (Raises (CxxParseError "ctx: unexpected 'register'"),
   {| heap := <[1%positive := ODict [("mutable", demo_tok "register" 7)]]>
                (heap demo_store);
      calls := [] |}).
Proof. by vm_compute. Qed.

Lemma validate_first_in_order_witness :
  classified demo_store demo_mods demo_vars demo_both demo_meths ∧
  ParsedTypeModifiers.validate demo_mods true false "ctx" demo_store =
  (Raises (CxxParseError "ctx: unexpected 'virtual'"), demo_store) ∧
  ParsedTypeModifiers.validate demo_mods true false "ctx" demo_store =
  (Raises (CxxParseError "ctx: unexpected 'virtual'"), demo_store).
Proof.
  split; [exact demo_classified|].
  assert (ParsedTypeModifiers.validate demo_mods true false "ctx" demo_store =
          (Raises (CxxParseError "ctx: unexpected 'virtual'"), demo_store)) as Hrun
    by (by vm_compute).
  split; [exact Hrun|].
  exact (proj2 (validate_first_in_order demo_store demo_mods _ _ _ true false "ctx" _ _
                  demo_classified Hrun)).
Defined.

Lemma validate_priority_witness :
  classified demo_store demo_mods demo_vars demo_both demo_meths ∧
  ParsedTypeModifiers.validate demo_mods false false "ctx" demo_store =
  (Raises (CxxParseError "ctx: unexpected 'mutable'"), demo_store).
Proof.
  split; [exact demo_classified|].
  exact (proj1 (validate_priority demo_store demo_mods _ _ _ false false "ctx"
                  demo_classified)
           "mutable" (demo_tok "mutable" 3) [] eq_refl eq_refl).
Defined.

(** ** Attributes and construction *)

Section Instances.
Context `{Externals}.

Lemma setattr_run w a cls attrs name v :
  heap w !! a = Some (OInstance cls attrs) →
  setattr a name v w =
  (Returns (), {| heap := <[a := OInstance cls (<[name := v]> attrs)]> (heap w);
                  calls := calls w |}).
Proof. intros Ha. unfold setattr, bind, read_heap. by rewrite Ha. Qed.

Lemma getattr_run w a cls attrs name v :
  heap w !! a = Some (OInstance cls attrs) → attrs !! name = Some v →
  getattr a name w = (Returns v, w).
Proof. intros Ha Hn. unfold getattr, bind, read_heap. by rewrite Ha, Hn. Qed.

(** An assignment to an attribute of an instance that was just written. *)
Lemma setattr_again h c a cls attrs name v :
  setattr a name v {| heap := <[a := OInstance cls attrs]> h; calls := c |} =
  (Returns (), {| heap := <[a := OInstance cls (<[name := v]> attrs)]> h; calls := c |}).
Proof.
  erewrite setattr_run by apply lookup_insert_eq. simpl.
  by rewrite insert_insert_eq.
Qed.

Lemma new_fresh (w : World) : heap w !! fresh (dom (heap w)) = None.
Proof. apply not_elem_of_dom, is_fresh. Qed.

(** Calling a class whose [__init__] only assigns attributes of [self], the
    parent among them. *)
Lemma instantiate_constructed cls init parent w :
  (∀ h c self, ∃ attrs,
     init self {| heap := <[self := OInstance cls ∅]> h; calls := c |} =
     (Returns (), {| heap := <[self := OInstance cls attrs]> h; calls := c |}) ∧
     attrs !! "parent" = Some (optional parent)) →
  constructed cls parent w (instantiate cls init w).
Proof.
  intros Hinit. unfold instantiate, bind at 1, new.
  destruct (Hinit (heap w) (calls w) (fresh (dom (heap w)))) as (attrs & Hrun & Hp).
  unfold bind. rewrite Hrun. unfold ret.
  eexists _, attrs, _. split; [reflexivity|]. simpl.
  split; [apply new_fresh|]. split; [apply lookup_insert_eq|].
  split; [done|]. split; [|done].
  intros a Ha. by apply lookup_insert_ne.
Qed.

Lemma State_init_run h c self cls attrs parent :
  State.__init__ self parent {| heap := <[self := OInstance cls attrs]> h; calls := c |} =
  (Returns (), {| heap := <[self := OInstance cls (<["parent" := optional parent]> attrs)]> h;
                  calls := c |}).
Proof. apply setattr_again. Qed.

Lemma State_constructed parent w :
  constructed cls_State parent w (State.create parent w).
Proof.
  apply instantiate_constructed. intros h c self. eexists.
  rewrite State_init_run. split; [done|]. apply lookup_insert_eq.
Qed.

Lemma ExternBlockState_constructed parent linkage w :
  constructed cls_ExternBlockState parent w (ExternBlockState.create parent linkage w).
Proof.
  apply instantiate_constructed. intros h c self. eexists.
  unfold ExternBlockState.__init__, bind. rewrite State_init_run, setattr_again.
  split; [done|]. by simplify_map_eq.
Qed.

Lemma NamespaceBlockState_constructed parent namespace w :
  constructed cls_NamespaceBlockState parent w
    (NamespaceBlockState.create parent namespace w).
Proof.
  apply instantiate_constructed. intros h c self. eexists.
  unfold NamespaceBlockState.__init__, bind. rewrite State_init_run, setattr_again.
  split; [done|]. by simplify_map_eq.
Qed.

Lemma ClassBlockState_constructed parent class_decl access typedef mods w :
  constructed cls_ClassBlockState parent w
    (ClassBlockState.create parent class_decl access typedef mods w).
Proof.
  apply instantiate_constructed. intros h c self. eexists.
  unfold ClassBlockState.__init__, bind. rewrite State_init_run, !setattr_again.
  split; [done|]. by simplify_map_eq.
Qed.

Lemma call_finish_run w state visitor cls attrs :
  heap w !! state = Some (OInstance cls attrs) →
  call_finish state visitor w =
  (Returns (), {| heap := heap w; calls := calls w ++ end_calls cls visitor state |}).
Proof.
  intros Hs. unfold call_finish, bind, read_heap. rewrite Hs.
  destruct cls, w; simpl; unfold State._finish, ret; by rewrite ?app_nil_r.
Qed.
End Instances.

(** ** The State hierarchy *)

Section States.
Context `{Externals}.

(** C7: [State.__init__] assigns the parent it is given to [self.parent] and
    does nothing else; calling any of the four classes with a parent, absent
    or not, returns a new state whose parent is that argument, without a
    check on it and with every other object, the parent included, left as
    it was. *)
Theorem parent_stored :
  (∀ w self cls attrs parent,
     heap w !! self = Some (OInstance cls attrs) →
     State.__init__ self parent w =
     (Returns (),
      {| heap := <[self := OInstance cls (<["parent" := optional parent]> attrs)]> (heap w);
         calls := calls w |})) ∧
  (∀ w parent, constructed cls_State parent w (State.create parent w)) ∧
  (∀ w parent linkage,
     constructed cls_ExternBlockState parent w
       (ExternBlockState.create parent linkage w)) ∧
  (∀ w parent namespace,
     constructed cls_NamespaceBlockState parent w
       (NamespaceBlockState.create parent namespace w)) ∧
  (∀ w parent class_decl access typedef mods,
     constructed cls_ClassBlockState parent w
       (ClassBlockState.create parent class_decl access typedef mods w)).
Proof.
  split; [|split; [|split; [|split]]]; intros.
  - by apply setattr_run.
  - apply State_constructed.
  - apply ExternBlockState_constructed.
  - apply NamespaceBlockState_constructed.
  - apply ClassBlockState_constructed.
Qed.

(** C8: [State._finish] returns without a call to the visitor and without a
    change to the store, also when it is reached through an instance of the
    base class. *)
Theorem base_finish_noop :
  (∀ w self visitor, State._finish self visitor w = (Returns (), w)) ∧
  (∀ w state visitor attrs,
     heap w !! state = Some (OInstance cls_State attrs) →
     call_finish state visitor w = (Returns (), w)).
Proof.
  split; [done|].
  intros w state visitor attrs Hs.
  unfold call_finish, bind, read_heap. by rewrite Hs.
Qed.

(** C4: [_finish] of an extern, namespace or class state makes exactly one
    call to the visitor, to [on_extern_block_end], [on_namespace_end] or
    [on_class_end] respectively, with the state itself as argument, and
    changes nothing in the store; the same holds when [_finish] is reached
    through an instance of the class. *)
Theorem finish_notifies_once :
  (∀ w self visitor,
     ExternBlockState._finish self visitor w =
     (Returns (), {| heap := heap w;
                     calls := calls w ++ [on_extern_block_end visitor self] |})) ∧
  (∀ w self visitor,
     NamespaceBlockState._finish self visitor w =
     (Returns (), {| heap := heap w;
                     calls := calls w ++ [on_namespace_end visitor self] |})) ∧
  (∀ w self visitor,
     ClassBlockState._finish self visitor w =
     (Returns (), {| heap := heap w;
                     calls := calls w ++ [on_class_end visitor self] |})) ∧
  (∀ w state visitor cls attrs,
     heap w !! state = Some (OInstance cls attrs) →
     cls ≠ cls_State →
     ∃ c, call_finish state visitor w =
          (Returns (), {| heap := heap w; calls := calls w ++ [c] |}) ∧
          call_state c = state ∧
          c = match cls with
              | cls_ExternBlockState => on_extern_block_end visitor state
              | cls_NamespaceBlockState => on_namespace_end visitor state
              | _ => on_class_end visitor state
              end).
Proof.
  split; [done|split; [done|split; [done|]]].
  intros w state visitor cls attrs Hs Hcls.
  rewrite (call_finish_run _ _ _ _ _ Hs).
  destruct cls; [done|..]; by eexists.
Qed.

(** C6: [_set_access] replaces the [access] attribute of its state by the
    argument; after setting "private" and then "public" the access of the
    state is "public", its other attributes are what they were, every other
    object of the store is what it was, and the visitor received nothing. *)
Theorem set_access_frame w self attrs :
  heap w !! self = Some (OInstance cls_ClassBlockState attrs) →
  (∀ access,
     ClassBlockState._set_access self access w =
     (Returns (),
      {| heap := <[self := OInstance cls_ClassBlockState
                             (<["access" := VStr access]> attrs)]> (heap w);
         calls := calls w |})) ∧
  ∃ w2 attrs2,
    bind (ClassBlockState._set_access self "private")
      (λ _, ClassBlockState._set_access self "public") w = (Returns (), w2) ∧
    heap w2 !! self = Some (OInstance cls_ClassBlockState attrs2) ∧
    attrs2 !! "access" = Some (VStr "public") ∧
    (∀ name, name ≠ "access" → attrs2 !! name = attrs !! name) ∧
    (∀ other, other ≠ self → heap w2 !! other = heap w !! other) ∧
    calls w2 = calls w.
Proof.
  intros Hs. split.
  - intros access. by apply setattr_run.
  - unfold ClassBlockState._set_access, bind.
    rewrite (setattr_run _ _ _ _ _ _ Hs), setattr_again.
    eexists _, _. split; [reflexivity|]. simpl.
    split; [apply lookup_insert_eq|].
    split; [apply lookup_insert_eq|].
    split; [|split; [|done]].
    + intros name Hn. by rewrite !lookup_insert_ne.
    + intros other Ho. by rewrite lookup_insert_ne.
Qed.

End States.

Lemma parent_stored_witness :
  heap demo_scopes !! 5%positive = Some (OInstance cls_ClassBlockState demo_class_attrs) ∧
  State.__init__ 5%positive None demo_scopes =
  (Returns (),
   {| heap := <[5%positive := OInstance cls_ClassBlockState
                                (<["parent" := VNone]> demo_class_attrs)]>
                (heap demo_scopes);
      calls := [] |}).
Proof.
  split; [by vm_compute|].
  exact (proj1 (parent_stored (H:=demo)) demo_scopes 5%positive _ _ None eq_refl).
Defined.

Lemma base_finish_noop_witness :
  heap demo_scopes !! 6%positive = Some (OInstance cls_State demo_state_attrs) ∧
  call_finish 6%positive demo_visitor demo_scopes = (Returns (), demo_scopes).
Proof.
  split; [by vm_compute|].
  exact (proj2 (base_finish_noop (H:=demo)) demo_scopes 6%positive demo_visitor _ eq_refl).
Defined.

Lemma finish_notifies_once_witness :
  heap demo_scopes !! 4%positive =
    Some (OInstance cls_NamespaceBlockState demo_namespace_attrs) ∧
  ∃ c, call_finish 4%positive demo_visitor demo_scopes =
       (Returns (), {| heap := heap demo_scopes; calls := [c] |}) ∧
       call_state c = 4%positive ∧
       c = on_namespace_end demo_visitor 4%positive.
Proof.
  split; [by vm_compute|].
  refine (proj2 (proj2 (proj2 (finish_notifies_once (H:=demo))))
            demo_scopes 4%positive demo_visitor _ _ eq_refl _).
  discriminate.
Defined.

Lemma set_access_frame_witness :
  heap demo_scopes !! 5%positive = Some (OInstance cls_ClassBlockState demo_class_attrs) ∧
  ClassBlockState._set_access 5%positive "public" demo_scopes =
  (Returns (),
   {| heap := <[5%positive := OInstance cls_ClassBlockState
                                (<["access" := VStr "public"]> demo_class_attrs)]>
                (heap demo_scopes);
      calls := [] |}).
Proof.
  split; [by vm_compute|].
  exact (proj1 (set_access_frame demo_scopes 5%positive _ eq_refl) "public").
Defined.

(** ** The scope stack *)

Section StackFacts.
Context `{Externals}.

Lemma closed_at_app_l (w w1 : World) l a j :
  calls w1 = calls w ++ l → closed_at w a j → closed_at w1 a j.
Proof.
  unfold closed_at. intros -> Hj.
  destruct (calls w !! j) as [c|] eqn:Hc; [|done].
  by rewrite (lookup_app_l_Some _ _ _ _ Hc).
Qed.

Lemma closed_at_snoc_inv (w w1 : World) c a j :
  calls w1 = calls w ++ [c] → closed_at w1 a j →
  closed_at w a j ∨ (j = length (calls w) ∧ a = call_state c).
Proof.
  unfold closed_at. intros -> Hj.
  destruct (decide (j < length (calls w))) as [Hlt|Hge].
  - left. by rewrite lookup_app_l in Hj.
  - right. rewrite lookup_app_r in Hj by lia.
    destruct (j - length (calls w)) as [|n] eqn:Hn; simpl in Hj; [|done].
    split; [lia|congruence].
Qed.

Lemma closed_at_lt (w : World) a j : closed_at w a j → j < length (calls w).
Proof.
  unfold closed_at. intros Hj. apply lookup_lt_is_Some.
  by destruct (calls w !! j).
Qed.

Lemma chain_mono (w w1 : World) top stk :
  (∀ a, a ∈ stk → heap w1 !! a = heap w !! a) → chain w top stk → chain w1 top stk.
Proof.
  revert top. induction stk as [|a stk IH]; intros top Hsame; [done|].
  intros (-> & cls & attrs & p & Ha & Hcls & Hp & Hrest).
  split; [done|]. exists cls, attrs, p.
  rewrite Hsame by apply list_elem_of_here.
  repeat split; try done.
  apply IH; [|done]. intros b Hb. apply Hsame. by apply list_elem_of_further.
Qed.

Lemma chain_alloc (w : World) top stk a :
  chain w top stk → a ∈ stk → is_Some (heap w !! a).
Proof.
  revert top. induction stk as [|b stk IH]; intros top Hch Ha.
  - by apply elem_of_nil in Ha.
  - destruct Hch as (-> & cls & attrs & p & Hb & _ & _ & Hrest).
    apply elem_of_cons in Ha as [->|Ha]; [by eexists|by eapply IH].
Qed.

Lemma chain_top (w : World) a stk : chain w (Some a) stk → a ∈ stk.
Proof.
  destruct stk as [|b stk]; [done|].
  intros ([= ->] & _). apply list_elem_of_here.
Qed.

(** On the chain, the parent of a state lies below the top. *)
Lemma chain_parent (w : World) top t stk a cls attrs q :
  chain w top (t :: stk) → a ∈ t :: stk →
  heap w !! a = Some (OInstance cls attrs) →
  attrs !! "parent" = Some (VRef q) → q ∈ stk.
Proof.
  revert top t. induction stk as [|t' stk IH]; intros top t Hch Ha Hla Hq.
  - destruct Hch as (_ & cls' & attrs' & p & Ht & _ & Hp & Hrest).
    apply list_elem_of_singleton in Ha as ->. simpl in Hrest. subst p.
    rewrite Ht in Hla. injection Hla as <- <-. rewrite Hp in Hq. done.
  - destruct Hch as (_ & cls' & attrs' & p & Ht & _ & Hp & Hrest).
    apply elem_of_cons in Ha as [->|Ha].
    + rewrite Ht in Hla. injection Hla as <- <-. rewrite Hp in Hq.
      destruct p as [p|]; [|done]. injection Hq as ->.
      by apply (chain_top w).
    + apply list_elem_of_further. by eapply IH.
Qed.

Lemma stack_inv_init ds : stack_inv (store_of ds) None [].
Proof.
  split.
  - done.
  - apply NoDup_nil_2.
  - intros a j Ha. by apply elem_of_nil in Ha.
  - intros a cls attrs. simpl. rewrite lookup_fmap.
    by destruct (ds !! a).
  - by intros a [|j].
  - by intros child parent cls attrs [|j].
  - apply NoDup_nil_2.
Qed.

Lemma stack_inv_push w top stk cls r :
  stack_inv w top stk → cls ≠ cls_State → constructed cls top w r →
  ∃ self w', r = (Returns self, w') ∧ stack_inv w' (Some self) (self :: stk).
Proof.
  intros [Hch Hnd Hopen Hclosed Halloc Hlifo Honce] Hcls
    (self & attrs & w' & -> & Hnew & Hself & Hparent & Hframe & Hcalls).
  exists self, w'. split; [done|].
  assert (Hnotin : self ∉ stk).
  { intros Hin. destruct (chain_alloc _ _ _ _ Hch Hin) as [o Ho]. congruence. }
  assert (Hsame : ∀ a j, closed_at w' a j ↔ closed_at w a j).
  { intros a j. unfold closed_at. by rewrite Hcalls. }
  split.
  - split; [done|]. exists cls, attrs, top. repeat split; try done.
    apply (chain_mono w); [|done]. intros a Ha. apply Hframe. congruence.
  - by apply NoDup_cons_2.
  - intros a j Ha Hj. apply Hsame in Hj.
    apply elem_of_cons in Ha as [->|Ha]; [|by eapply Hopen].
    destruct (Halloc _ _ Hj) as [o Ho]. congruence.
  - intros a cls' attrs' Ha.
    destruct (decide (a = self)) as [->|Hne]; [left; apply list_elem_of_here|].
    rewrite Hframe in Ha by done.
    destruct (Hclosed _ _ _ Ha) as [Hin|[j Hj]].
    + left. by apply list_elem_of_further.
    + right. exists j. by apply Hsame.
  - intros a j Hj. apply Hsame in Hj.
    destruct (Halloc _ _ Hj) as [o Ho].
    rewrite Hframe; [by eexists|congruence].
  - intros child parent cls' attrs' j Hchild Hp Hj. apply Hsame in Hj.
    destruct (decide (child = self)) as [->|Hne].
    + rewrite Hself in Hchild. injection Hchild as <- <-.
      rewrite Hparent in Hp. destruct top as [top|]; [|done]. injection Hp as ->.
      exfalso. eapply Hopen; [|done]. by apply (chain_top w).
    + rewrite Hframe in Hchild by done.
      destruct (Hlifo _ _ _ _ _ Hchild Hp Hj) as (i & Hi & Hci).
      exists i. split; [done|]. by apply Hsame.
  - by rewrite Hcalls.
Qed.
Lemma end_calls_single cls visitor state :
  cls ≠ cls_State → ∃ c, end_calls cls visitor state = [c] ∧ call_state c = state.
Proof. destruct cls; [done|..]; intros _; by eexists. Qed.

Lemma pop_run w visitor t cls attrs p :
  heap w !! t = Some (OInstance cls attrs) →
  attrs !! "parent" = Some (optional p) →
  Parser.step visitor (Some t) Parser.pop w =
  (Returns p, {| heap := heap w; calls := calls w ++ end_calls cls visitor t |}).
Proof.
  intros Ht Hp. simpl. unfold bind at 1.
  rewrite (call_finish_run _ _ _ _ _ Ht). unfold bind.
  erewrite getattr_run by done. by destruct p.
Qed.

Lemma stack_inv_pop w visitor t stk :
  stack_inv w (Some t) (t :: stk) →
  ∃ p w', Parser.step visitor (Some t) Parser.pop w = (Returns p, w') ∧
          stack_inv w' p stk.
Proof.
  intros [Hch Hnd Hopen Hclosed Halloc Hlifo Honce].
  pose proof Hch as (_ & cls & attrs & p & Ht & Hcls & Hp & Hrest).
  destruct (end_calls_single cls visitor t Hcls) as (c & Hc & Hct).
  eexists p, _. split; [exact (pop_run _ _ _ _ _ _ Ht Hp)|].
  rewrite Hc. set (w' := {| heap := heap w; calls := calls w ++ [c] |}).
  assert (Hcalls : calls w' = calls w ++ [c]) by done.
  apply NoDup_cons in Hnd as [Hnotin Hnd].
  split.
  - by apply (chain_mono w).
  - done.
  - intros a j Ha Hj.
    destruct (closed_at_snoc_inv w w' c a j Hcalls Hj) as [Hold|[_ ->]].
    + eapply Hopen; [|done]. by apply list_elem_of_further.
    + congruence.
  - intros a cls' attrs' Ha.
    destruct (Hclosed a cls' attrs' Ha) as [Hin|[j Hj]].
    + apply elem_of_cons in Hin as [->|Hin]; [right|by left].
      exists (length (calls w)). unfold closed_at. simpl.
      rewrite lookup_app_r, Nat.sub_diag by done. simpl. by rewrite Hct.
    + right. exists j. by apply (closed_at_app_l w w' [c]).
  - intros a j Hj.
    destruct (closed_at_snoc_inv w w' c a j Hcalls Hj) as [Hold|[_ ->]].
    + by eapply Halloc.
    + rewrite Hct. by eexists.
  - intros child parent cls' attrs' j Hchild Hparent Hj.
    destruct (closed_at_snoc_inv w w' c parent j Hcalls Hj) as [Hold|[-> ->]].
    + destruct (Hlifo _ _ _ _ _ Hchild Hparent Hold) as (i & Hi & Hci).
      exists i. split; [done|]. by apply (closed_at_app_l w w' [c]).
    + rewrite Hct in Hparent.
      destruct (Hclosed _ _ _ Hchild) as [Hin|[i Hi]].
      * exfalso. apply Hnotin. by eapply chain_parent.
      * exists i. split; [by eapply closed_at_lt|].
        by apply (closed_at_app_l w w' [c]).
  - simpl. rewrite fmap_app. apply NoDup_app. split; [done|].
    split; [|apply NoDup_singleton].
    intros a Ha Hin. apply list_elem_of_singleton in Hin. subst a.
    apply list_elem_of_lookup in Ha as [j Hj]. rewrite list_lookup_fmap in Hj.
    apply (Hopen t j); [apply list_elem_of_here|]. unfold closed_at. congruence.
Qed.

(** A step keeps the invariant; a step that raises changes nothing. *)
Lemma step_inv visitor op w top stk :
  stack_inv w top stk →
  (∃ top' stk' w', Parser.step visitor top op w = (Returns top', w') ∧
                   stack_inv w' top' stk') ∨
  (∃ e, Parser.step visitor top op w = (Raises e, w)).
Proof.
  intros Hinv. destruct op as [linkage|namespace|class_decl access typedef mods|].
  - left.
    destruct (stack_inv_push w top stk cls_ExternBlockState _ Hinv ltac:(done)
                (ExternBlockState_constructed top linkage w)) as (self & w' & Hr & Hinv').
    exists (Some self), (self :: stk), w'. split; [|done].
    simpl. unfold bind. by rewrite Hr.
  - left.
    destruct (stack_inv_push w top stk cls_NamespaceBlockState _ Hinv ltac:(done)
                (NamespaceBlockState_constructed top namespace w))
      as (self & w' & Hr & Hinv').
    exists (Some self), (self :: stk), w'. split; [|done].
    simpl. unfold bind. by rewrite Hr.
  - left.
    destruct (stack_inv_push w top stk cls_ClassBlockState _ Hinv ltac:(done)
                (ClassBlockState_constructed top class_decl access typedef mods w))
      as (self & w' & Hr & Hinv').
    exists (Some self), (self :: stk), w'. split; [|done].
    simpl. unfold bind. by rewrite Hr.
  - destruct top as [t|]; [left|right; by eexists].
    assert (∃ stk', stk = t :: stk') as [stk' ->].
    { destruct Hinv as [Hch _ _ _ _ _ _]. destruct stk as [|a stk]; [done|].
      destruct Hch as ([= ->] & _). by eexists. }
    destruct (stack_inv_pop w visitor t stk' Hinv) as (p & w' & Hr & Hinv').
    by exists p, stk', w'.
Qed.

Lemma run_inv visitor ops w top stk :
  stack_inv w top stk →
  ∃ top' stk', stack_inv (Parser.run visitor top ops w).2 top' stk'.
Proof.
  revert w top stk. induction ops as [|op ops IH]; intros w top stk Hinv.
  - by exists top, stk.
  - simpl. unfold bind.
    destruct (step_inv visitor op w top stk Hinv)
      as [(top' & stk' & w' & -> & Hinv')|[e ->]].
    + by eapply IH.
    + by exists top, stk.
Qed.
End StackFacts.

Section CloseOrder.
Context `{Externals}.
Import Parser.

Lemma run_cons_returns visitor top op ops w top' w' :
  step visitor top op w = (Returns top', w') →
  run visitor top (op :: ops) w = run visitor top' ops w'.
Proof. intros Hs. simpl. unfold bind. by rewrite Hs. Qed.

Lemma push_run (create : Py addr) (w w' : World) self :
  create w = (Returns self, w') →
  bind create (λ s, ret (Some s)) w = (Returns (Some self), w').
Proof. intros Hc. unfold bind. by rewrite Hc. Qed.

(** C3: close notifications follow the nesting.  Whatever sequence of pushes
    and pops the grammar runs from an empty stack, if the visitor received
    the close notification of a state then it received the one of every
    state nested directly in it before, and no state is notified twice; and
    pushing a namespace [A], then a
    class [B] inside it, then popping twice delivers [on_class_end(B)] and
    then [on_namespace_end(A)], and leaves the stack where it was. *)
Theorem close_order_lifo :
  (∀ ds visitor ops child parent cls attrs j,
     heap (run visitor None ops (store_of ds)).2 !! child = Some (OInstance cls attrs) →
     attrs !! "parent" = Some (VRef parent) →
     closed_at (run visitor None ops (store_of ds)).2 parent j →
     ∃ i, i < j ∧ closed_at (run visitor None ops (store_of ds)).2 child i) ∧
  (∀ ds visitor ops,
     NoDup (call_state <$> calls (run visitor None ops (store_of ds)).2)) ∧
  (∀ w top visitor namespace class_decl access typedef mods,
     ∃ A B w',
       A ≠ B ∧
       run visitor top
         [push_namespace namespace; push_class class_decl access typedef mods; pop; pop]
         w = (Returns top, w') ∧
       calls w' = calls w ++ [on_class_end visitor B; on_namespace_end visitor A]).
Proof.
  split; [|split].
  - intros ds visitor ops.
    destruct (run_inv visitor ops _ _ _ (stack_inv_init ds)) as (top & stk & Hinv).
    apply (inv_lifo _ _ _ Hinv).
  - intros ds visitor ops.
    destruct (run_inv visitor ops _ _ _ (stack_inv_init ds)) as (top & stk & Hinv).
    apply (inv_once _ _ _ Hinv).
  - intros w top visitor namespace class_decl access typedef mods.
    destruct (NamespaceBlockState_constructed top namespace w)
      as (A & attrsA & w1 & HrA & HnewA & HA & HpA & HframeA & HcallsA).
    destruct (ClassBlockState_constructed (Some A) class_decl access typedef mods w1)
      as (B & attrsB & w2 & HrB & HnewB & HB & HpB & HframeB & HcallsB).
    assert (HAB : A ≠ B) by congruence.
    exists A, B. eexists. split; [done|].
    rewrite (run_cons_returns visitor top (push_namespace namespace) _ _ _ _
               (push_run _ _ _ _ HrA)).
    rewrite (run_cons_returns visitor (Some A)
               (push_class class_decl access typedef mods) _ _ _ _
               (push_run _ _ _ _ HrB)).
    rewrite (run_cons_returns _ _ _ _ _ _ _ (pop_run w2 visitor B _ _ (Some A) HB HpB)).
    erewrite run_cons_returns;
      [|apply (pop_run _ visitor A cls_NamespaceBlockState attrsA top);
        [simpl; by rewrite HframeB|done]].
    split; [reflexivity|]. simpl.
    by rewrite HcallsB, HcallsA, <- app_assoc.
Qed.

End CloseOrder.

Lemma close_order_lifo_witness :
  ∃ i, i < 1 ∧
       closed_at (Parser.run demo_visitor None demo_ops (store_of ∅)).2 2%positive i.
Proof.
  eapply (proj1 (close_order_lifo (H:=demo)) ∅ demo_visitor demo_ops
            2%positive 1%positive _ _ 1).
  - vm_compute. reflexivity.
  - vm_compute. reflexivity.
  - vm_compute. reflexivity.
Defined.

(** * Further properties of the code *)

(** ** What a constructor leaves in the new state *)

Section Construction.
Context `{Externals}.


(** Calling a class, with the attributes its [__init__] assigns. *)
Lemma instantiate_run cls init w attrs :
  (∀ h c self,
     init self {| heap := <[self := OInstance cls ∅]> h; calls := c |} =
     (Returns (), {| heap := <[self := OInstance cls attrs]> h; calls := c |})) →
  instantiate cls init w =
  (Returns (fresh (dom (heap w))),
   {| heap := <[fresh (dom (heap w)) := OInstance cls attrs]> (heap w);
      calls := calls w |}).
Proof.
  intros Hinit. unfold instantiate, bind at 1, new.
  unfold bind. by rewrite Hinit.
Qed.




Lemma ClassBlockState_create_run parent class_decl access typedef mods w :
  ClassBlockState.create parent class_decl access typedef mods w =
  (Returns (fresh (dom (heap w))),
   {| heap := <[fresh (dom (heap w)) :=
                  OInstance cls_ClassBlockState
                    (<["mods" := VMods mods]>
                       (<["typedef" := VBool typedef]>
                          (<["access" := VStr access]>
                             (<["class_decl" := VClassDecl class_decl]>
                                (<["parent" := optional parent]> ∅)))))]> (heap w);
      calls := calls w |}).
Proof.
  apply instantiate_run. intros h c self.
  unfold ClassBlockState.__init__, bind. by rewrite State_init_run, !setattr_again.
Qed.






End Construction.





(** ** More on validate *)

Lemma length_append (a b : string) :
  String.length (a +:+ b) = String.length a + String.length b.
Proof.
  induction a as [|x a IH]; [done|].
  change (S (String.length (a +:+ b)) = S (String.length a + String.length b)).
  by rewrite IH.
Qed.

Lemma append_cancel_r (a b c : string) : a +:+ c = b +:+ c → a = b.
Proof.
  revert b. induction a as [|x a IH]; intros [|y b] Heq.
  - done.
  - apply (f_equal String.length) in Heq.
    change (String.length c = S (String.length (b +:+ c))) in Heq.
    rewrite length_append in Heq. lia.
  - apply (f_equal String.length) in Heq.
    change (S (String.length (a +:+ c)) = String.length c) in Heq.
    rewrite length_append in Heq. lia.
  - change (String x (a +:+ c) = String y (b +:+ c)) in Heq.
    injection Heq as -> Heq. f_equal. by apply IH.
Qed.

Section ValidateMore.
Context `{Externals}.
Import ParsedTypeModifiers.

(** X5: the outcome of [validate] is decided by the flags, the message and
    the spelling of the first token of each mapping that a flag exposes:
    [vars] when variables are refused, [meths] when methods are refused,
    [both] when both are.  Later entries, mappings a flag does not expose,
    keys, and every other object of the store make no difference. *)
Theorem validate_reads_first w w' self self' dv db dm dv' db' dm' var_ok meth_ok msg :
  classified w self dv db dm →
  classified w' self' dv' db' dm' →
  (var_ok = false → value <$> head (dv.*2) = value <$> head (dv'.*2)) →
  (meth_ok = false → value <$> head (dm.*2) = value <$> head (dm'.*2)) →
  (var_ok = false → meth_ok = false →
   value <$> head (db.*2) = value <$> head (db'.*2)) →
  (validate self var_ok meth_ok msg w).1 = (validate self' var_ok meth_ok msg w').1.
Proof.
  intros Hc Hc' Hv Hm Hb.
  rewrite (validate_run _ _ _ _ _ _ _ _ Hc), (validate_run _ _ _ _ _ _ _ _ Hc').
  unfold unexpected.
  destruct var_ok, meth_ok; simpl in Hv, Hm, Hb |- *;
    try specialize (Hv eq_refl); try specialize (Hm eq_refl);
    try specialize (Hb eq_refl eq_refl);
    destruct dv as [|[? ?] ?], dv' as [|[? ?] ?], dm as [|[? ?] ?],
      dm' as [|[? ?] ?], db as [|[? ?] ?], db' as [|[? ?] ?];
    simpl in *; congruence.
Qed.

(** X6: accepting more never turns a pass into a failure: if [validate]
    returns for some flags, it returns for any flags that accept at least
    what those accepted. *)
Theorem validate_monotone w self dv db dm var_ok meth_ok var_ok' meth_ok' msg :
  classified w self dv db dm →
  (var_ok = true → var_ok' = true) →
  (meth_ok = true → meth_ok' = true) →
  validate self var_ok meth_ok msg w = (Returns (), w) →
  validate self var_ok' meth_ok' msg w = (Returns (), w).
Proof.
  intros Hc Hv Hm.
  rewrite !(validate_run _ _ _ _ _ _ _ _ Hc).
  destruct var_ok, meth_ok, var_ok', meth_ok';
    try (specialize (Hv eq_refl)); try (specialize (Hm eq_refl)); try done;
    destruct dv as [|[? ?] ?], dm as [|[? ?] ?], db as [|[? ?] ?]; done.
Qed.

(** X7: for a given context message the error names the spelling without
    ambiguity: two tokens give the same message only if they are spelled
    the same. *)
Theorem unexpected_names_spelling msg (tok1 tok2 : LexToken) :
  unexpected msg tok1 = unexpected msg tok2 → value tok1 = value tok2.
Proof.
  unfold unexpected. intros Heq.
  apply (inj (String.app msg)) in Heq.
  apply (inj (String.app ": unexpected '")) in Heq.
  by apply append_cancel_r in Heq.
Qed.

End ValidateMore.

Lemma validate_reads_first_witness :
  classified demo_store demo_mods demo_vars demo_both demo_meths ∧
  classified demo_scopes demo_mods demo_vars demo_both demo_meths ∧
  (ParsedTypeModifiers.validate demo_mods true false "ctx" demo_store).1 =
  (ParsedTypeModifiers.validate demo_mods true false "ctx" demo_scopes).1.
Proof.
  assert (classified demo_scopes demo_mods demo_vars demo_both demo_meths) as Hc'
    by (by vm_compute).
  split; [exact demo_classified|]. split; [exact Hc'|].
  apply (validate_reads_first demo_store demo_scopes demo_mods demo_mods
           _ _ _ _ _ _ true false "ctx" demo_classified Hc'); done.
Defined.

Lemma validate_monotone_witness :
  classified demo_store_no_vars demo_mods [] demo_both demo_meths ∧
  ParsedTypeModifiers.validate demo_mods false true "ctx" demo_store_no_vars =
  (Returns (), demo_store_no_vars) ∧
  ParsedTypeModifiers.validate demo_mods true true "ctx" demo_store_no_vars =
  (Returns (), demo_store_no_vars).
Proof.
  assert (classified demo_store_no_vars demo_mods [] demo_both demo_meths) as Hc
    by (by vm_compute).
  assert (ParsedTypeModifiers.validate demo_mods false true "ctx" demo_store_no_vars =
          (Returns (), demo_store_no_vars)) as Hrun by (by vm_compute).
  split; [exact Hc|]. split; [exact Hrun|].
  apply (validate_monotone demo_store_no_vars demo_mods _ _ _ false true true true "ctx"
           Hc); done.
Defined.

Lemma unexpected_names_spelling_witness :
  ParsedTypeModifiers.unexpected "ctx" (demo_tok "mutable" 3) =
  ParsedTypeModifiers.unexpected "ctx" (demo_tok "mutable" 9) ∧
  value (demo_tok "mutable" 3) = value (demo_tok "mutable" 9).
Proof.
  split; [reflexivity|].
  exact (unexpected_names_spelling (H:=demo) "ctx" (demo_tok "mutable" 3)
           (demo_tok "mutable" 9) eq_refl).
Defined.

(** ** How the operations on a state compose *)

Section Composition.
Context `{Externals}.

(** X8: the last assignment of the access wins: setting it twice leaves
    the store exactly as setting it once to the second value, and setting
    it to the same value again changes nothing more. *)
Theorem set_access_overwrites w self cls attrs a b :
  heap w !! self = Some (OInstance cls attrs) →
  bind (ClassBlockState._set_access self a)
    (λ _, ClassBlockState._set_access self b) w =
  ClassBlockState._set_access self b w.
Proof.
  intros Hs. unfold ClassBlockState._set_access, bind.
  rewrite !(setattr_run _ _ _ _ _ _ Hs), setattr_again.
  by rewrite insert_insert_eq.
Qed.

(** X9: a class state whose access is set after construction reads back the
    new access, while [parent], [class_decl], [typedef] and [mods] read back
    as constructed; the constructor's access is gone. *)
Theorem access_after_set w parent class_decl access typedef mods access' :
  ∃ self w',
    bind (ClassBlockState.create parent class_decl access typedef mods)
      (λ s, bind (ClassBlockState._set_access s access') (λ _, ret s)) w =
    (Returns self, w') ∧
    getattr self "access" w' = (Returns (VStr access'), w') ∧
    getattr self "parent" w' = (Returns (optional parent), w') ∧
    getattr self "class_decl" w' = (Returns (VClassDecl class_decl), w') ∧
    getattr self "typedef" w' = (Returns (VBool typedef), w') ∧
    getattr self "mods" w' = (Returns (VMods mods), w').
Proof.
  eexists _, _. split.
  - unfold bind at 1. rewrite ClassBlockState_create_run.
    unfold bind, ClassBlockState._set_access. by rewrite setattr_again.
  - repeat split; (eapply getattr_run; [apply lookup_insert_eq|by simplify_map_eq]).
Qed.

(** X10: nothing guards a state against being closed twice: a second
    [_finish] on an extern, namespace or class state notifies the visitor
    again, with the same call. *)
Theorem finish_twice w state visitor cls attrs :
  heap w !! state = Some (OInstance cls attrs) →
  cls ≠ cls_State →
  ∃ c, call_state c = state ∧
       bind (call_finish state visitor) (λ _, call_finish state visitor) w =
       (Returns (), {| heap := heap w; calls := calls w ++ [c; c] |}).
Proof.
  intros Hs Hcls.
  destruct (end_calls_single cls visitor state Hcls) as (c & Hc & Hst).
  exists c. split; [done|].
  unfold bind. rewrite (call_finish_run _ _ _ _ _ Hs).
  erewrite call_finish_run by exact Hs. simpl.
  by rewrite Hc, <- app_assoc.
Qed.


End Composition.

Lemma set_access_overwrites_witness :
  heap demo_scopes !! 5%positive = Some (OInstance cls_ClassBlockState demo_class_attrs) ∧
  bind (ClassBlockState._set_access 5%positive "private")
    (λ _, ClassBlockState._set_access 5%positive "public") demo_scopes =
  ClassBlockState._set_access 5%positive "public" demo_scopes.
Proof.
  split; [by vm_compute|].
  exact (set_access_overwrites demo_scopes 5%positive _ _ "private" "public" eq_refl).
Defined.

Lemma finish_twice_witness :
  heap demo_scopes !! 5%positive = Some (OInstance cls_ClassBlockState demo_class_attrs) ∧
  ∃ c, call_state c = 5%positive ∧
       bind (call_finish 5%positive demo_visitor)
         (λ _, call_finish 5%positive demo_visitor) demo_scopes =
       (Returns (), {| heap := heap demo_scopes; calls := [c; c] |}).
Proof.
  split; [by vm_compute|].
  refine (finish_twice demo_scopes 5%positive demo_visitor _ _ eq_refl _).
  discriminate.
Defined.

